(** * The tree recipe: memory_management_in_cyclic_data_structures(tree).py

    A shallow embedding of the classes [Node] and [Tree] and of the
    traversal queries [descendants], [ancestors], [children] and [root].

    Modelling conventions.
    - Every [Node] object is created by [Tree.create_node] and appended to
      [Tree.nodes]; the list [Tree.nodes] is therefore the object store,
      and a reference to a Node is its position in that list.  Two
      references are the same object iff they are the same position.
    - [Node.children] is a Python list of references.  The list object of a
      node is shared by everything that holds it: a frame of the
      [descendants] stack that was pushed with [stack.append(child.children)]
      is that very list, so popping from it updates the node.
    - [Node._parent] holds [None] or a [weakref.ref]; the Tree keeps every
      node alive, so calling the weak reference gives the node back.
    - A [while] loop is a function with a fuel argument; running out of
      fuel is a result of its own and is never confused with a return.
    - Parameter annotations are not evaluated; they play no role at run
      time. *)

From stdpp Require Import base option list strings relations.
From Stdlib Require Import ZArith Lia.

Open Scope Z_scope.
Open Scope nat_scope.

(** ** Data model *)

(** One input record: [{'id': .., 'title': .., 'parent_id': ..}]. *)
Record Item : Type := mkItem {
  item_id : Z;
  item_title : string;
  item_parent_id : option Z
}.

(** A reference to a Node object. *)
Abbreviation ref := nat (only parsing).

(** [weakref.ref(node_)]. *)
Inductive weakref : Type :=
| weakref_ref (target : ref).

(** Calling a weak reference: the referent is owned by [Tree.nodes] and is
    alive, so the call returns it. *)
Definition call (w : weakref) : option ref :=
  match w with weakref_ref r => Some r end.

(** The attributes set by [Node.__init__]. *)
Record Node : Type := mkNode {
  id : Z;
  title : string;
  parent_id : option Z;
  _parent : option weakref;
  children : list ref
}.

(** [Tree.nodes]: the owning list of nodes, position = reference. *)
Abbreviation heap := (list Node) (only parsing).

(** [Node.__init__(id_, title, parent_id)] *)
Definition Node_init (id_ : Z) (title_ : string) (parent_id_ : option Z) : Node :=
  {| id := id_; title := title_; parent_id := parent_id_;
     _parent := None; children := [] |}.

(** [Node.__len__]: also the truth value of a Node, as the class defines
    no [__bool__]. *)
Definition Node_len (x : Node) : nat := length (children x).

(** The [parent] property (getter). *)
Definition parent (x : Node) : option ref :=
  match _parent x with
  | None => None
  | Some w => call w
  end.

(** The [parent] property (setter). *)
Definition set_parent (node_ : ref) (x : Node) : Node :=
  {| id := id x; title := title x; parent_id := parent_id x;
     _parent := Some (weakref_ref node_); children := children x |}.

(** Replacing the contents of the list object [x.children]. *)
Definition set_children (l : list ref) (x : Node) : Node :=
  {| id := id x; title := title x; parent_id := parent_id x;
     _parent := _parent x; children := l |}.

(** Attribute reads through a reference. *)
Definition children_of (h : heap) (r : ref) : list ref :=
  from_option children [] (h !! r).

Definition parent_of (h : heap) (r : ref) : option ref :=
  h !! r ≫= parent.

(** ** Construction *)

(** [Node.add_child]: [self.children.append(node_); node_.parent = self]. *)
Definition add_child (self node_ : ref) (h : heap) : heap :=
  alter (set_parent self) node_
    (alter (fun x => set_children (children x ++ [node_]) x) self h).

(** [Tree.create_node] *)
Definition create_node (h : heap) (item : Item) : heap :=
  h ++ [Node_init (item_id item) (item_title item) (item_parent_id item)].

(** The test of the lambda in [populate_children]:
    [x.parent_id == n.id], read from the current objects. *)
Definition is_child_of (h : heap) (n x : ref) : bool :=
  match h !! n, h !! x with
  | Some nn, Some xx => bool_decide (parent_id xx = Some (id nn))
  | _, _ => false
  end.

(** The inner loop of [populate_children] for one [n]: the lazy [filter]
    walks [self.nodes] and each accepted node is added at once. *)
Definition populate_node (h : heap) (n : ref) : heap :=
  foldl (fun h' x => if is_child_of h' n x then add_child n x h' else h')
        h (seq 0 (length h)).

(** [Tree.populate_children] *)
Definition populate_children (h : heap) : heap :=
  foldl populate_node h (seq 0 (length h)).

(** [Tree.__init__] *)
Definition Tree_init (items : list Item) : heap :=
  populate_children (foldl create_node [] items).

(** ** Traversal queries *)

(** [Tree.children] returns the list object of the node. *)
Definition Tree_children (h : heap) (n : ref) : list ref := children_of h n.

(** A list object held by the stack of [descendants]: the private copy made
    by [n.children.copy()], or the list object of a node. *)
Inductive frame : Type :=
| Copy (l : list ref)
| Shared (owner : ref).

Definition frame_list (h : heap) (f : frame) : list ref :=
  match f with
  | Copy l => l
  | Shared r => children_of h r
  end.

(** The effect of [children.pop(0)] when the remaining elements are [rest]. *)
Definition frame_store (h : heap) (f : frame) (rest : list ref) : heap * frame :=
  match f with
  | Copy _ => (h, Copy rest)
  | Shared r => (alter (set_children rest) r h, Shared r)
  end.

(** The [while stack:] loop of [descendants].  The stack is kept with its
    top ([stack[-1]]) at the head.  The result is the sequence of yielded
    nodes and the store once the generator is exhausted. *)
Fixpoint descendants_loop (fuel : nat) (h : heap) (stack : list frame)
  : option (list ref * heap) :=
  match fuel with
  | O => None
  | S fuel' =>
    match stack with
    | [] => Some ([], h)
    | top :: below =>
      match frame_list h top with
      | [] => descendants_loop fuel' h below
      | child :: rest =>
        let '(h1, top1) := frame_store h top rest in
        let stack1 :=
          match children_of h1 child with
          | [] => top1 :: below
          | _ :: _ => Shared child :: top1 :: below
          end in
        match descendants_loop fuel' h1 stack1 with
        | Some (ys, h2) => Some (child :: ys, h2)
        | None => None
        end
      end
    end
  end.

(** [list(Tree.descendants(n))]: a full enumeration. *)
Definition descendants (fuel : nat) (h : heap) (n : ref)
  : option (list ref * heap) :=
  descendants_loop fuel h [Copy (children_of h n)].

(** Module globals that the functions read.  The name [node] is bound only
    by the [for node in tree.nodes] loop under the [__main__] guard. *)
Record globals : Type := mkGlobals {
  g_node : option ref
}.

(** The module loaded by an import: [node] is not bound. *)
Definition imported : globals := {| g_node := None |}.

(** The module run as a script, after its printing loop: [node] is the last
    element of [tree.nodes]. *)
Definition run_as_main (h : heap) : globals :=
  {| g_node := match length h with O => None | S k => Some k end |}.

Inductive exn : Type :=
| NameError (name : string).

Inductive outcome (A : Type) : Type :=
| Returns (a : A)
| Raises (e : exn)
| OutOfFuel.
Arguments Returns {A} a.
Arguments Raises {A} e.
Arguments OutOfFuel {A}.

(** The truth value of [node_] in [while node_:]: [None] is false, a Node is
    true iff [len(node_)] is not zero. *)
Definition truthy (h : heap) (node_ : option ref) : bool :=
  match node_ with
  | None => false
  | Some r =>
    match h !! r with
    | Some x => negb (Nat.eqb (Node_len x) 0)
    | None => false
    end
  end.

(** The loop of [ancestors]:
    [while node_: node_ = node_.parent; parents.insert(0, node)].
    The inserted value is the global [node], not the local [node_]. *)
Fixpoint ancestors_loop (g : globals) (fuel : nat) (h : heap)
    (node_ : option ref) (parents : list ref) : outcome (list ref) :=
  match fuel with
  | O => OutOfFuel
  | S fuel' =>
    if truthy h node_ then
      let node_' := node_ ≫= parent_of h in
      match g_node g with
      | None => Raises (NameError "node")
      | Some v => ancestors_loop g fuel' h node_' (v :: parents)
      end
    else Returns parents
  end.

(** [Tree.ancestors] *)
Definition ancestors (g : globals) (fuel : nat) (h : heap) (n : ref)
  : outcome (list ref) :=
  ancestors_loop g fuel h (Some n) [].

(** The value of [Tree.root]: a Node, or the empty list [[]]. *)
Inductive root_value : Type :=
| RootNode (r : ref)
| EmptyList.

(** [Tree.root]: [ancestors[0] if ancestors else []]. *)
Definition root (g : globals) (fuel : nat) (h : heap) (n : ref)
  : outcome root_value :=
  match ancestors g fuel h n with
  | Returns [] => Returns EmptyList
  | Returns (a :: _) => Returns (RootNode a)
  | Raises e => Raises e
  | OutOfFuel => OutOfFuel
  end.

(** ** The sample of the module *)

Definition data : list Item :=
  [ mkItem 1 "Category #1" None;
    mkItem 2 "Category #2" None;
    mkItem 3 "Category #3" (Some 1%Z);
    mkItem 4 "Category #4" (Some 2%Z);
    mkItem 5 "Category #5" (Some 3%Z);
    mkItem 6 "Category #6" (Some 4%Z);
    mkItem 7 "Category #7" (Some 6%Z);
    mkItem 8 "Category #8" (Some 5%Z);
    mkItem 9 "Category #9" (Some 5%Z) ].

Definition tree : heap := Tree_init data.

(** [the_node k] is the reference to the node with id [k] of the sample. *)
Definition the_node (k : nat) : ref := k - 1.

(** ** Vocabulary of the statements *)

(** The attributes of a node that come from its record. *)
Definition item_of (x : Node) : Item :=
  {| item_id := id x; item_title := title x; item_parent_id := parent_id x |}.

(** Record number [x] names record number [n] as its parent. *)
Definition names_parent (items : list Item) (n x : nat) : bool :=
  match items !! n, items !! x with
  | Some a, Some b => bool_decide (item_parent_id b = Some (item_id a))
  | _, _ => false
  end.

(** The last record of [l] that [x] names as its parent, [acc] if none. *)
Definition last_parent (items : list Item) (x : nat) (acc : option ref)
    (l : list nat) : option ref :=
  foldl (fun a n => if names_parent items n x then Some n else a) acc l.

(** The inner loop of [populate_children], over any list of candidates. *)
Definition scan (n : ref) (h : heap) (l : list ref) : heap :=
  foldl (fun h' x => if is_child_of h' n x then add_child n x h' else h') h l.

(** [b] is a child of [a]. *)
Definition child (h : heap) (a b : ref) : Prop := b ∈ children_of h a.

(** [b] is reachable from [a] by following [children] at least once. *)
Definition reachable (h : heap) (a b : ref) : Prop := tc (child h) a b.

(** The nodes below the list [l], in preorder, down to [d] levels. *)
Fixpoint pre (d : nat) (h : heap) (l : list ref) : list ref :=
  match d with
  | O => []
  | S d' => l ≫= (fun c => c :: pre d' h (children_of h c))
  end.

(** No chain of children that starts in [l] has more than [d] nodes. *)
Fixpoint bounded (d : nat) (h : heap) (l : list ref) : Prop :=
  match d with
  | O => l = []
  | S d' => ∀ c, c ∈ l → bounded d' h (children_of h c)
  end.

(** Putting yielded nodes in front of the rest of an enumeration. *)
Definition prepend (ys : list ref) (r : option (list ref * heap))
  : option (list ref * heap) :=
  match r with
  | Some (zs, h') => Some (ys ++ zs, h')
  | None => None
  end.

(** The stack after [child] was taken from [top]. *)
Definition push_child (h : heap) (c : ref) (stack : list frame) : list frame :=
  match children_of h c with
  | [] => stack
  | _ :: _ => Shared c :: stack
  end.

(** Going up [j] times along a parent map. *)
Fixpoint up (par : ref → option ref) (j : nat) (x : ref) : option ref :=
  match j with
  | O => Some x
  | S j' => up par j' x ≫= par
  end.

(** The position of the first record with id [p]. *)
Definition find_id (items : list Item) (p : Z) : option nat :=
  fst <$> list_find (fun it => item_id it = p) items.

(** The position of the record that record number [x] names as its
    parent. *)
Definition par_index (items : list Item) (x : nat) : option nat :=
  items !! x ≫= fun it => item_parent_id it ≫= find_id items.

(** The number of [parent_id] links from record number [x] up to a record
    with a null [parent_id]; [None] when a link dangles or when no such
    record is met within [fuel] records. *)
Fixpoint depth_of (fuel : nat) (items : list Item) (x : nat) : option nat :=
  match fuel with
  | O => None
  | S fuel' =>
    match items !! x with
    | None => None
    | Some it =>
      match item_parent_id it with
      | None => Some 0
      | Some p =>
        match find_id items p with
        | None => None
        | Some i => S <$> depth_of fuel' items i
        end
      end
    end
  end.

Definition depth (items : list Item) (x : nat) : nat :=
  default 0 (depth_of (length items) items x).

(** The ids of the records are pairwise different. *)
Definition unique_ids (items : list Item) : Prop :=
  NoDup (item_id <$> items).

(** Every non-null [parent_id] is the id of some record. *)
Definition no_dangling (items : list Item) : Prop :=
  ∀ it p, it ∈ items → item_parent_id it = Some p → p ∈ item_id <$> items.

(** Every chain of [parent_id] links ends at a record with a null
    [parent_id]: no link dangles and no record is its own ancestor.  A
    chain without repetition visits at most [length items] records. *)
Definition acyclic (items : list Item) : Prop :=
  ∀ x, x < length items → is_Some (depth_of (length items) items x).

(** The store that a full enumeration of [descendants n] leaves; [h] itself
    when the fuel runs out. *)
Definition after_descendants (fuel : nat) (h : heap) (n : ref) : heap :=
  default h (snd <$> descendants fuel h n).

(** Settles a closed decidable goal by evaluating its decision procedure. *)
Ltac decide_by_computation :=
  match goal with
  | |- ?P => apply (bool_decide_unpack P); vm_compute; exact I
  end.

(** ** Construction: what [Tree_init] builds *)

Section Construction.

Lemma item_of_set_parent r x : item_of (set_parent r x) = item_of x.
Proof. reflexivity. Qed.

Lemma item_of_set_children l x : item_of (set_children l x) = item_of x.
Proof. reflexivity. Qed.

Lemma fmap_item_of_alter (f : Node → Node) i (h : heap) :
  (∀ x, item_of (f x) = item_of x) →
  item_of <$> alter f i h = item_of <$> h.
Proof.
  intros Hf. apply list_eq. intros j. rewrite !list_lookup_fmap.
  destruct (decide (i = j)) as [->|Hne].
  - rewrite list_lookup_alter_eq. destruct (h !! j); simpl; [|done].
    by rewrite Hf.
  - by rewrite list_lookup_alter_ne.
Qed.

Lemma add_child_items n c h : item_of <$> add_child n c h = item_of <$> h.
Proof.
  unfold add_child. rewrite !fmap_item_of_alter; done.
Qed.

Lemma add_child_length n c h : length (add_child n c h) = length h.
Proof. unfold add_child. by rewrite !length_alter. Qed.

Lemma children_of_alter f i h r :
  children_of (alter f i h) r =
  if decide (i = r) then from_option (children ∘ f) [] (h !! r)
  else children_of h r.
Proof.
  unfold children_of. case_decide as Hd.
  - subst. rewrite list_lookup_alter_eq. by destruct (h !! r).
  - by rewrite list_lookup_alter_ne.
Qed.

Lemma parent_of_alter f i h r :
  parent_of (alter f i h) r =
  if decide (i = r) then h !! r ≫= (parent ∘ f) else parent_of h r.
Proof.
  unfold parent_of. case_decide as Hd.
  - subst. rewrite list_lookup_alter_eq. by destruct (h !! r).
  - by rewrite list_lookup_alter_ne.
Qed.

Lemma children_of_set_parent n c h r :
  children_of (alter (set_parent n) c h) r = children_of h r.
Proof.
  rewrite children_of_alter. case_decide; [|done].
  unfold children_of. by destruct (h !! r).
Qed.

Lemma add_child_children n c h i :
  n < length h →
  children_of (add_child n c h) i =
  if decide (i = n) then children_of h n ++ [c] else children_of h i.
Proof.
  intros Hn. destruct (lookup_lt_is_Some_2 h n Hn) as [x Hx].
  unfold add_child. rewrite children_of_set_parent, children_of_alter.
  unfold children_of.
  destruct (decide (n = i)) as [->|]; [rewrite decide_True by done|
    by rewrite decide_False by done].
  by rewrite Hx.
Qed.

Lemma add_child_parent n c h j :
  c < length h →
  parent_of (add_child n c h) j =
  if decide (j = c) then Some n else parent_of h j.
Proof.
  intros Hc. unfold add_child. rewrite parent_of_alter.
  case_decide; subst.
  - rewrite decide_True by done.
    assert (is_Some (alter (λ x, set_children (children x ++ [j]) x) n h !! j))
      as [y ->]; [|done].
    apply lookup_lt_is_Some. by rewrite length_alter.
  - rewrite decide_False by done. rewrite parent_of_alter.
    case_decide; [|done]. subst. unfold parent_of.
    by destruct (h !! j).
Qed.

Lemma is_child_of_items h n x :
  is_child_of h n x = names_parent (item_of <$> h) n x.
Proof.
  unfold is_child_of, names_parent. rewrite !list_lookup_fmap.
  destruct (h !! n), (h !! x); done.
Qed.

Lemma names_parent_lt items n x :
  names_parent items n x = true → n < length items ∧ x < length items.
Proof.
  unfold names_parent. intros H.
  destruct (items !! n) eqn:Hn; [|done].
  destruct (items !! x) eqn:Hx; [|done].
  split; by eapply lookup_lt_Some.
Qed.

Lemma filter_none {A} (P : A → Prop) `{∀ x, Decision (P x)} (l : list A) :
  (∀ x, x ∈ l → ¬ P x) → filter P l = [].
Proof.
  induction l as [|a l IH]; intros Hl; [done|].
  rewrite filter_cons_False by (apply Hl, elem_of_cons; by left).
  apply IH. intros x Hx. apply Hl, elem_of_cons. by right.
Qed.

Lemma scan_items n l h : item_of <$> scan n h l = item_of <$> h.
Proof.
  unfold scan. revert h. induction l as [|x l IH]; intros h; [done|].
  simpl. rewrite IH. destruct (is_child_of h n x); [|done].
  apply add_child_items.
Qed.

Lemma scan_length n l h : length (scan n h l) = length h.
Proof.
  rewrite <- (length_fmap item_of), scan_items. by rewrite length_fmap.
Qed.

Lemma scan_children n l h i :
  children_of (scan n h l) i =
  if decide (i = n)
  then children_of h n ++ filter (λ x, names_parent (item_of <$> h) n x) l
  else children_of h i.
Proof.
  unfold scan. revert h. induction l as [|x l IH]; intros h.
  - simpl. case_decide; subst; by rewrite ?app_nil_r.
  - simpl. rewrite IH. clear IH. rewrite is_child_of_items.
    destruct (names_parent (item_of <$> h) n x) eqn:Hx.
    + rewrite add_child_items. apply names_parent_lt in Hx as Hlt.
      rewrite length_fmap in Hlt. destruct Hlt as [Hn _].
      rewrite !add_child_children by done.
      rewrite filter_cons_True by (by apply Is_true_true).
      case_decide; subst.
      * rewrite decide_True by done. by rewrite <- app_assoc.
      * done.
    + by rewrite filter_cons_False by (by apply Is_true_false).
Qed.

Lemma scan_parent n l h j :
  parent_of (scan n h l) j =
  if decide (j ∈ l ∧ names_parent (item_of <$> h) n j)
  then Some n else parent_of h j.
Proof.
  unfold scan. revert h. induction l as [|x l IH]; intros h.
  - cbn [foldl]. case_decide as Hd; [|done].
    destruct Hd as [Hd _]. by apply elem_of_nil in Hd.
  - cbn [foldl]. rewrite IH. clear IH. rewrite is_child_of_items.
    destruct (names_parent (item_of <$> h) n x) eqn:Hx.
    + rewrite add_child_items. apply names_parent_lt in Hx as Hlt.
      rewrite length_fmap in Hlt. destruct Hlt as [_ Hc].
      rewrite add_child_parent by done.
      destruct (decide (j = x)) as [->|Hjx].
      * assert (x ∈ x :: l ∧ names_parent (item_of <$> h) n x) as HP.
        { split; [apply elem_of_cons; by left | by apply Is_true_true]. }
        repeat case_decide; done.
      * apply decide_ext. rewrite elem_of_cons. naive_solver.
    + apply decide_ext. rewrite elem_of_cons.
      split; [naive_solver|]. intros [[->|?] Hj]; [|done].
      by rewrite Hx in Hj.
Qed.

Lemma populate_node_eq h n : populate_node h n = scan n h (seq 0 (length h)).
Proof. reflexivity. Qed.

Lemma fold_populate_items l h :
  item_of <$> foldl populate_node h l = item_of <$> h.
Proof.
  revert h. induction l as [|n l IH]; intros h; [done|].
  simpl. rewrite IH, populate_node_eq. apply scan_items.
Qed.

Lemma fold_populate_children l h i :
  NoDup l →
  children_of (foldl populate_node h l) i =
  if decide (i ∈ l)
  then children_of h i ++
       filter (λ x, names_parent (item_of <$> h) i x) (seq 0 (length h))
  else children_of h i.
Proof.
  intros Hl. revert h. induction Hl as [|n l Hn Hl IH]; intros h.
  - cbn [foldl]. case_decide as Hd; [|done]. by apply elem_of_nil in Hd.
  - cbn [foldl]. rewrite IH. clear IH. rewrite populate_node_eq.
    rewrite scan_items, scan_length, scan_children.
    destruct (decide (i = n)) as [->|Hin].
    + rewrite decide_False by done. rewrite decide_True; [done|].
      apply elem_of_cons; by left.
    + apply decide_ext. rewrite elem_of_cons. naive_solver.
Qed.

Lemma fold_populate_parent l h j :
  parent_of (foldl populate_node h l) j =
  last_parent (item_of <$> h) j (parent_of h j) l.
Proof.
  unfold last_parent. revert h. induction l as [|n l IH]; intros h; [done|].
  simpl. rewrite IH. clear IH. rewrite populate_node_eq.
  rewrite scan_items, scan_parent. f_equal.
  destruct (names_parent (item_of <$> h) n j) eqn:Hx.
  - rewrite decide_True; [done|]. split; [|done].
    apply names_parent_lt in Hx. rewrite length_fmap in Hx.
    apply elem_of_seq. lia.
  - rewrite decide_False; [done|]. by intros [_ ?].
Qed.

Lemma create_nodes_eq items h :
  foldl create_node h items =
  h ++ ((λ it, Node_init (item_id it) (item_title it) (item_parent_id it))
        <$> items).
Proof.
  revert h. induction items as [|it items IH]; intros h; simpl.
  - by rewrite app_nil_r.
  - rewrite IH. unfold create_node. by rewrite <- app_assoc.
Qed.

Lemma created_items items : item_of <$> foldl create_node [] items = items.
Proof.
  rewrite create_nodes_eq. simpl. rewrite <- list_fmap_compose.
  rewrite <- (list_fmap_id items) at 2. apply list_fmap_ext.
  intros _ [? ? ?] _. reflexivity.
Qed.

Lemma created_children items i :
  children_of (foldl create_node [] items) i = [].
Proof.
  rewrite create_nodes_eq. simpl. unfold children_of.
  rewrite list_lookup_fmap. by destruct (items !! i).
Qed.

Lemma created_parent items i :
  parent_of (foldl create_node [] items) i = None.
Proof.
  rewrite create_nodes_eq. simpl. unfold parent_of.
  rewrite list_lookup_fmap. by destruct (items !! i).
Qed.

(** The record attributes of the nodes are the records, in input order. *)
Lemma Tree_init_items items : item_of <$> Tree_init items = items.
Proof.
  unfold Tree_init, populate_children.
  rewrite fold_populate_items. apply created_items.
Qed.

Lemma Tree_init_length items : length (Tree_init items) = length items.
Proof. by rewrite <- (length_fmap item_of), Tree_init_items. Qed.

(** The children of a node are the records that name it, in input order. *)
Lemma Tree_init_children items i :
  children_of (Tree_init items) i =
  filter (λ x, names_parent items i x) (seq 0 (length items)).
Proof.
  unfold Tree_init, populate_children.
  rewrite fold_populate_children by apply NoDup_seq.
  rewrite created_items, created_children.
  rewrite <- (length_fmap item_of), created_items.
  case_decide as Hi; [done|]. symmetry. apply filter_none.
  intros x _ Hx. apply Is_true_true, names_parent_lt in Hx.
  apply Hi, elem_of_seq. lia.
Qed.

Lemma Tree_init_parent items j :
  parent_of (Tree_init items) j =
  last_parent items j None (seq 0 (length items)).
Proof.
  unfold Tree_init, populate_children.
  rewrite fold_populate_parent, created_items, created_parent.
  by rewrite <- (length_fmap item_of), created_items.
Qed.

End Construction.

(** ** The loop of [descendants] *)

Section DescendantsLoop.

Lemma prepend_nil r : prepend [] r = r.
Proof. by destruct r as [[? ?]|]. Qed.

Lemma prepend_app a b r : prepend (a ++ b) r = prepend a (prepend b r).
Proof. destruct r as [[? ?]|]; [|done]. simpl. by rewrite app_assoc. Qed.

Lemma loop_pop fuel h top below :
  frame_list h top = [] →
  descendants_loop (S fuel) h (top :: below) = descendants_loop fuel h below.
Proof. intros E. simpl. by rewrite E. Qed.

Lemma loop_yield fuel h top below c rest :
  frame_list h top = c :: rest →
  descendants_loop (S fuel) h (top :: below) =
  prepend [c]
    (descendants_loop fuel (frame_store h top rest).1
       (push_child (frame_store h top rest).1 c
          ((frame_store h top rest).2 :: below))).
Proof.
  intros E. simpl. rewrite E. unfold push_child.
  destruct (frame_store h top rest) as [h1 top1]. simpl.
  destruct (children_of h1 c);
    by destruct (descendants_loop fuel h1 _) as [[? ?]|].
Qed.

Lemma pre_nil d h : pre d h [] = [].
Proof. by destruct d. Qed.

Lemma pre_cons d h c l :
  pre (S d) h (c :: l) = c :: pre d h (children_of h c) ++ pre (S d) h l.
Proof. reflexivity. Qed.

Lemma pre_ext d h h' l :
  (∀ x, x ∈ pre d h l → children_of h' x = children_of h x) →
  pre d h' l = pre d h l.
Proof.
  revert l. induction d as [|d IHd]; intros l Hag; [done|].
  induction l as [|c l IHl]; [done|].
  rewrite !pre_cons in *. rewrite Hag by set_solver.
  rewrite IHd by (intros x Hx; apply Hag; set_solver).
  rewrite IHl by (intros x Hx; apply Hag; set_solver). done.
Qed.

Lemma bounded_ext d h h' l :
  (∀ x, x ∈ pre d h l → children_of h' x = children_of h x) →
  bounded d h l → bounded d h' l.
Proof.
  revert l. induction d as [|d IHd]; intros l Hag Hb; [done|].
  simpl. intros c Hc.
  apply list_elem_of_split in Hc as (l1 & l2 & ->).
  assert (pre (S d) h (l1 ++ c :: l2) =
          pre (S d) h l1 ++ (c :: pre d h (children_of h c)) ++ pre (S d) h l2)
    as E by (simpl; by rewrite bind_app).
  rewrite E in Hag.
  rewrite Hag by set_solver. apply IHd.
  - intros x Hx. apply Hag. set_solver.
  - apply Hb. set_solver.
Qed.

Lemma frame_store_list h top c rest :
  frame_list h top = c :: rest →
  frame_list (frame_store h top rest).1 (frame_store h top rest).2 = rest.
Proof.
  destruct top as [l|r]; [done|]. simpl. unfold children_of.
  rewrite list_lookup_alter_eq. by destruct (h !! r).
Qed.

Lemma frame_store_children h top rest x :
  top ≠ Shared x →
  children_of (frame_store h top rest).1 x = children_of h x.
Proof.
  destruct top as [l|r]; [done|]. simpl. intros Hne.
  rewrite children_of_alter. rewrite decide_False; [done|]. congruence.
Qed.

Lemma frame_store_kind h top rest x :
  (frame_store h top rest).2 = Shared x ↔ top = Shared x.
Proof. by destruct top. Qed.

Lemma frame_list_ext h h' top :
  (∀ r, top = Shared r → children_of h' r = children_of h r) →
  frame_list h' top = frame_list h top.
Proof. destruct top as [l|r]; [done|]. intros E. simpl. by apply E. Qed.

(** Running the loop on a stack whose top frame holds [l]: the nodes below
    [l] are yielded in preorder, the frame is removed, and only the children
    lists of the yielded nodes and of the owner of the frame are touched. *)
Lemma loop_frame d :
  ∀ l h top below,
    frame_list h top = l →
    bounded d h l →
    NoDup (pre d h l) →
    (∀ r, top = Shared r → r ∉ pre d h l) →
    ∃ k h',
      (∀ fuel, descendants_loop (k + fuel) h (top :: below) =
               prepend (pre d h l) (descendants_loop fuel h' below)) ∧
      (∀ x, x ∉ pre d h l → top ≠ Shared x →
            children_of h' x = children_of h x).
Proof.
  induction d as [|d IHd]; intros l.
  { intros h top below El Hb _ _. simpl in Hb. subst l. exists 1, h.
    split; [|done]. intros fuel.
    change (1 + fuel) with (S fuel). rewrite loop_pop by done.
    by rewrite prepend_nil. }
  induction l as [|c l IHl]; intros h top below El Hb Hnd Htop.
  { exists 1, h. split; [|done]. intros fuel.
    change (1 + fuel) with (S fuel). rewrite loop_pop by done.
    by rewrite prepend_nil. }
  rewrite pre_cons in Hnd, Htop. rewrite pre_cons.
  set (lc := children_of h c) in *.
  set (h1 := (frame_store h top l).1).
  set (top1 := (frame_store h top l).2).
  assert (Hh1 : ∀ x, top ≠ Shared x → children_of h1 x = children_of h x)
    by (intros; by apply frame_store_children).
  assert (Hag1 : ∀ x, x ∈ c :: pre d h lc ++ pre (S d) h l →
                      children_of h1 x = children_of h x).
  { intros x Hx. apply Hh1. intros ->. by eapply Htop. }
  apply NoDup_cons in Hnd as [Hc Hnd].
  apply NoDup_app in Hnd as (Hnd1 & Hdisj & Hnd2).
  assert (pre d h1 lc = pre d h lc) as Epre1.
  { apply pre_ext. intros x Hx. apply Hag1. set_solver. }
  assert (∃ k1 h2,
    (∀ fuel, descendants_loop (k1 + fuel) h1 (push_child h1 c (top1 :: below))
             = prepend (pre d h lc)
                 (descendants_loop fuel h2 (top1 :: below))) ∧
    (∀ x, x ∉ pre d h lc → x ≠ c → children_of h2 x = children_of h1 x))
    as (k1 & h2 & Hrun1 & Hag2).
  { unfold push_child. rewrite (Hag1 c) by set_solver. fold lc.
    destruct lc as [|c' lc'] eqn:Elc.
    - exists 0, h1. rewrite pre_nil. split; [|done].
      intros fuel. by rewrite prepend_nil.
    - destruct (IHd (c' :: lc') h1 (Shared c) (top1 :: below))
        as (k1 & h2 & Hrun & Hag).
      + simpl. rewrite (Hag1 c) by set_solver. done.
      + apply (bounded_ext d h).
        * intros x Hx. apply Hag1. set_solver.
        * rewrite <- Elc. apply Hb. set_solver.
      + by rewrite Epre1.
      + intros r [= <-]. rewrite Epre1. set_solver.
      + exists k1, h2. rewrite Epre1 in Hrun, Hag. split; [done|].
        intros x Hx Hxc. apply Hag; [done|congruence]. }
  assert (Hag12 : ∀ x, x ∈ pre (S d) h l → children_of h2 x = children_of h x).
  { intros x Hx. rewrite Hag2.
    - apply Hag1. set_solver.
    - intros Hx'. by apply (Hdisj x).
    - intros ->. set_solver. }
  assert (pre (S d) h2 l = pre (S d) h l) as Epre2 by by apply pre_ext.
  destruct (IHl h2 top1 below) as (k2 & h3 & Hrun2 & Hag3).
  - rewrite (frame_list_ext h1); [by eapply frame_store_list|].
    intros r Hr. apply frame_store_kind in Hr.
    apply Hag2; [|intros ->]; specialize (Htop _ Hr); set_solver.
  - apply (bounded_ext (S d) h); [done|].
    simpl. intros c0 Hc0. apply Hb. set_solver.
  - by rewrite Epre2.
  - intros r Hr. apply frame_store_kind in Hr. rewrite Epre2.
    specialize (Htop _ Hr). set_solver.
  - exists (S (k1 + k2)), h3. split.
    + intros fuel.
      replace (S (k1 + k2) + fuel) with (S (k1 + (k2 + fuel))) by lia.
      rewrite (loop_yield _ _ _ _ c l El). fold h1 top1.
      rewrite Hrun1, Hrun2, Epre2.
      by rewrite <- !prepend_app.
    + intros x Hx Hxtop. rewrite Hag3, Hag2, Hh1; try done.
      * set_solver.
      * set_solver.
      * rewrite Epre2. set_solver.
      * unfold top1. by rewrite frame_store_kind.
Qed.

End DescendantsLoop.

(** ** Forests *)

(** Membership in the preorder listing is reachability from the list. *)
Lemma elem_of_pre d h l x :
  bounded d h l →
  x ∈ pre d h l ↔ ∃ c, c ∈ l ∧ rtc (child h) c x.
Proof.
  revert l x. induction d as [|d IHd]; intros l x Hb.
  - simpl in Hb. subst l. simpl. split.
    + by intros ?%elem_of_nil.
    + intros (c & Hc & _). by apply elem_of_nil in Hc.
  - cbn [pre]. rewrite list_elem_of_bind. split.
    + intros (c & Hx & Hc). exists c. split; [done|].
      apply elem_of_cons in Hx as [->|Hx]; [done|].
      apply IHd in Hx as (c1 & Hc1 & Hr); [|by apply Hb].
      by eapply rtc_l.
    + intros (c & Hc & Hr). exists c. split; [|done].
      apply elem_of_cons. apply rtc_inv in Hr as [->|(c1 & Hc1 & Hr)];
        [by left|right].
      apply IHd; [by apply Hb|]. by exists c1.
Qed.

Lemma reachable_inv h n x :
  reachable h n x ↔ ∃ c, c ∈ children_of h n ∧ rtc (child h) c x.
Proof.
  unfold reachable. split.
  - intros Ht. inversion Ht as [? ? Hc|? c ? Hc Ht']; subst.
    + by exists x.
    + exists c. split; [done|]. by apply tc_rtc.
  - intros (c & Hc & Hr). eapply tc_rtc_r; [|done]. by apply tc_once.
Qed.

Section Forest.

Variable h : heap.
Variable par : ref → option ref.
Variable D : ref → nat.
Variable N : nat.
Hypothesis Hpar : ∀ i c, child h i c → par c = Some i.
Hypothesis HD : ∀ i c, child h i c → D c = S (D i).
Hypothesis HN : ∀ i c, child h i c → D c < N.
Hypothesis Hnd : ∀ i, NoDup (children_of h i).

(** A node listed below a list [l] of nodes of level [k] lies at a level
    [k] or more, and going up to level [k] from it ends in [l]. *)
Lemma pre_level d : ∀ k l x,
  (∀ c, c ∈ l → D c = k) →
  x ∈ pre d h l →
  k ≤ D x ∧ ∃ c, c ∈ l ∧ up par (D x - k) x = Some c.
Proof.
  induction d as [|d IHd]; intros k l x Hl Hx.
  { by apply elem_of_nil in Hx. }
  cbn [pre] in Hx. apply list_elem_of_bind in Hx as (c & Hx & Hc).
  apply elem_of_cons in Hx as [->|Hx].
  - rewrite (Hl c Hc). split; [done|]. exists c. split; [done|].
    by rewrite Nat.sub_diag.
  - apply (IHd (S k)) in Hx as (Hk & c1 & Hc1 & Hup).
    + split; [lia|]. exists c. split; [done|].
      replace (D x - k) with (S (D x - S k)) by lia.
      cbn [up]. rewrite Hup. simpl. by apply Hpar.
    + intros c1 Hc1. rewrite (HD c c1 Hc1). by rewrite (Hl c Hc).
Qed.

Lemma pre_NoDup d : ∀ k l,
  NoDup l → (∀ c, c ∈ l → D c = k) → NoDup (pre d h l).
Proof.
  induction d as [|d IHd]; intros k l Hl Hk; [constructor|].
  induction Hl as [|c l Hc Hl IHl]; [constructor|].
  rewrite pre_cons.
  assert (Hk' : ∀ c1, c1 ∈ children_of h c → D c1 = S k).
  { intros c1 Hc1. rewrite (HD c c1 Hc1). rewrite Hk; [done|]. set_solver. }
  assert (Hkl : ∀ c1, c1 ∈ l → D c1 = k) by (intros; apply Hk; set_solver).
  assert (Dc : D c = k) by (apply Hk; set_solver).
  apply NoDup_cons. split; [|apply NoDup_app; split_and!].
  - intros [Hin|Hin]%elem_of_app.
    + apply (pre_level d (S k)) in Hin as [Hle _]; [lia|done].
    + apply (pre_level (S d) k) in Hin as (_ & c' & Hc' & Hup); [|done].
      rewrite Dc, Nat.sub_diag in Hup. simpl in Hup. by simplify_eq.
  - by apply (IHd (S k)).
  - intros x Hx1 Hx2.
    apply (pre_level d (S k)) in Hx1 as (Hle & c1 & Hc1 & Hup1); [|done].
    apply (pre_level (S d) k) in Hx2 as (_ & c' & Hc' & Hup2); [|done].
    replace (D x - k) with (S (D x - S k)) in Hup2 by lia.
    cbn [up] in Hup2. rewrite Hup1 in Hup2. simpl in Hup2.
    rewrite (Hpar c c1 Hc1) in Hup2. by simplify_eq.
  - by apply IHl.
Qed.

Lemma pre_bounded d : ∀ k l,
  (∀ c, c ∈ l → D c = k) → (∀ c, c ∈ l → D c < N) → N ≤ d + k →
  bounded d h l.
Proof.
  induction d as [|d IHd]; intros k l Hk Hl Hle.
  - simpl. destruct l as [|c l]; [done|]. exfalso.
    assert (c ∈ c :: l) as Hc by set_solver.
    specialize (Hk c Hc). specialize (Hl c Hc). lia.
  - simpl. intros c Hc. apply (IHd (S k)).
    + intros c1 Hc1. rewrite (HD c c1 Hc1). by rewrite (Hk c Hc).
    + intros c1 Hc1. by apply (HN c).
    + lia.
Qed.

(** In a forest a full enumeration of [descendants n] ends, and yields each
    node reachable from [n] once. *)
Lemma descendants_forest n :
  ∃ k ys h',
    (∀ fuel, k ≤ fuel → descendants fuel h n = Some (ys, h')) ∧
    NoDup ys ∧ (∀ x, x ∈ ys ↔ reachable h n x) ∧ n ∉ ys.
Proof.
  assert (Hk : ∀ c, c ∈ children_of h n → D c = S (D n))
    by (intros; by apply HD).
  assert (Hb : bounded N h (children_of h n)).
  { apply (pre_bounded N (S (D n))); [done| |lia].
    intros c Hc. by apply (HN n). }
  assert (Hnd' : NoDup (pre N h (children_of h n))).
  { by apply (pre_NoDup N (S (D n))). }
  destruct (loop_frame N (children_of h n) h (Copy (children_of h n)) [])
    as (k & h' & Hrun & _); [done..|].
  exists (S k), (pre N h (children_of h n)), h'. split_and!.
  - intros fuel Hf. unfold descendants.
    replace fuel with (k + S (fuel - S k)) by lia.
    rewrite Hrun. simpl. by rewrite app_nil_r.
  - done.
  - intros x. rewrite elem_of_pre by done. by rewrite reachable_inv.
  - intros Hin. apply (pre_level N (S (D n))) in Hin as [Hle _]; [lia|done].
Qed.

End Forest.

(** ** Records and the forest they describe *)

Section Records.

Variable items : list Item.

Lemma find_id_Some p i :
  find_id items p = Some i → ∃ a, items !! i = Some a ∧ item_id a = p.
Proof.
  unfold find_id. intros E. apply fmap_Some in E as ([i' a] & E & ->).
  apply list_find_Some in E as (Hi & Ha & _). by exists a.
Qed.

Lemma unique_ids_lookup i j a b :
  unique_ids items →
  items !! i = Some a → items !! j = Some b → item_id a = item_id b → i = j.
Proof.
  intros Hu Hi Hj E. eapply NoDup_lookup; [exact Hu|..].
  - rewrite list_lookup_fmap, Hi. reflexivity.
  - rewrite list_lookup_fmap, Hj. simpl. by rewrite E.
Qed.

Lemma find_id_lookup n a :
  unique_ids items → items !! n = Some a → find_id items (item_id a) = Some n.
Proof.
  intros Hu Hn. unfold find_id.
  assert (is_Some (list_find (λ it, item_id it = item_id a) items))
    as [[i x] E].
  { eapply list_find_elem_of; [by eapply list_elem_of_lookup_2|done]. }
  rewrite E. simpl. f_equal.
  apply list_find_Some in E as (Hi & Hx & _).
  by eapply unique_ids_lookup.
Qed.

Lemma names_parent_true n x :
  names_parent items n x = true ↔
  ∃ a b, items !! n = Some a ∧ items !! x = Some b ∧
         item_parent_id b = Some (item_id a).
Proof.
  unfold names_parent. split.
  - destruct (items !! n) as [a|]; [|done].
    destruct (items !! x) as [b|]; [|done].
    intros E%bool_decide_eq_true. by exists a, b.
  - intros (a & b & -> & -> & E). by apply bool_decide_eq_true.
Qed.

Lemma names_parent_par n x :
  unique_ids items → names_parent items n x = true → par_index items x = Some n.
Proof.
  intros Hu (a & b & Hn & Hx & E)%names_parent_true.
  unfold par_index. rewrite Hx. simpl. rewrite E. simpl.
  by apply find_id_lookup.
Qed.

Lemma names_parent_unique n n' x :
  unique_ids items →
  names_parent items n x = true → names_parent items n' x = true → n' = n.
Proof.
  intros Hu H1%(names_parent_par _ _ Hu) H2%(names_parent_par _ _ Hu).
  congruence.
Qed.

Lemma last_parent_none x acc l :
  (∀ n, names_parent items n x = false) → last_parent items x acc l = acc.
Proof.
  intros Hno. unfold last_parent. revert acc.
  induction l as [|m l IH]; intros acc; [done|].
  simpl. by rewrite Hno.
Qed.

Lemma last_parent_unique x acc l n :
  n ∈ l → names_parent items n x = true →
  (∀ n', names_parent items n' x = true → n' = n) →
  last_parent items x acc l = Some n.
Proof.
  intros Hn Hx Huniq. unfold last_parent.
  induction l as [|m l IH] using rev_ind; [by apply elem_of_nil in Hn|].
  rewrite foldl_snoc.
  destruct (names_parent items m x) eqn:Hm.
  - f_equal. by apply Huniq.
  - apply IH. apply elem_of_app in Hn as [Hn|Hn]; [done|].
    apply list_elem_of_singleton in Hn as ->. congruence.
Qed.

Lemma depth_of_mono fuel : ∀ x k,
  depth_of fuel items x = Some k → depth_of (S fuel) items x = Some k.
Proof.
  induction fuel as [|fuel IH]; intros x k E; [done|].
  cbn [depth_of] in E |- *.
  destruct (items !! x) as [it|]; [|done].
  destruct (item_parent_id it) as [p|]; [|done].
  destruct (find_id items p) as [i|]; [|done].
  apply fmap_Some in E as (k' & E & ->).
  apply IH in E. cbn [depth_of] in E. by rewrite E.
Qed.

Lemma depth_of_lt fuel : ∀ x k,
  depth_of fuel items x = Some k → k < fuel.
Proof.
  induction fuel as [|fuel IH]; intros x k E; [done|].
  cbn [depth_of] in E.
  destruct (items !! x) as [it|]; [|done].
  destruct (item_parent_id it) as [p|]; [|simplify_eq; lia].
  destruct (find_id items p) as [i|]; [|done].
  apply fmap_Some in E as (k' & E & ->).
  apply IH in E. lia.
Qed.

Lemma par_index_lt c i : par_index items c = Some i → c < length items.
Proof.
  unfold par_index. destruct (items !! c) eqn:E; [|done].
  intros _. by eapply lookup_lt_Some.
Qed.

Lemma depth_step c i :
  acyclic items → par_index items c = Some i →
  depth items c = S (depth items i).
Proof.
  intros Hac Hp. pose proof (par_index_lt _ _ Hp) as Hlt.
  destruct (Hac c Hlt) as [k Hk]. unfold depth. rewrite Hk. simpl.
  destruct (length items) as [|fuel] eqn:El; [done|].
  pose proof Hk as Hk'. cbn [depth_of] in Hk'. unfold par_index in Hp.
  destruct (items !! c) as [it|]; [|done]. simpl in Hp.
  destruct (item_parent_id it) as [p|]; [|done]. simpl in Hp.
  rewrite Hp in Hk'. apply fmap_Some in Hk' as (k' & E & ->).
  apply depth_of_mono in E. by rewrite E.
Qed.

Lemma depth_lt c :
  acyclic items → c < length items → depth items c < length items.
Proof.
  intros Hac Hlt. destruct (Hac c Hlt) as [k Hk]. unfold depth.
  rewrite Hk. simpl. by eapply depth_of_lt.
Qed.

Lemma Tree_init_child n c :
  child (Tree_init items) n c ↔ names_parent items n c = true.
Proof.
  unfold child. rewrite Tree_init_children, list_elem_of_filter.
  rewrite elem_of_seq, Is_true_true. split; [by intros [? _]|].
  intros Hc. split; [done|]. apply names_parent_lt in Hc. lia.
Qed.

Lemma Tree_init_children_NoDup n : NoDup (children_of (Tree_init items) n).
Proof. rewrite Tree_init_children. apply NoDup_filter, NoDup_seq. Qed.

Lemma Tree_init_lookup j it :
  items !! j = Some it →
  ∃ x, Tree_init items !! j = Some x ∧ item_of x = it.
Proof.
  intros Hj. pose proof (Tree_init_items items) as E.
  apply (f_equal (λ l, l !! j)) in E. rewrite list_lookup_fmap, Hj in E.
  apply fmap_Some in E as (x & Hx & ->). by exists x.
Qed.

Lemma Tree_init_lookup_inv j x :
  Tree_init items !! j = Some x → items !! j = Some (item_of x).
Proof.
  intros Hj. rewrite <- (Tree_init_items items) at 1.
  by rewrite list_lookup_fmap, Hj.
Qed.

End Records.

(** ** The loop of [ancestors] and [root] *)

Section Ancestors.

Variable h : list Node.

Lemma truthy_Some n x :
  h !! n = Some x → truthy h (Some n) = negb (Nat.eqb (length (children x)) 0).
Proof. intros Hn. unfold truthy, Node_len. by rewrite Hn. Qed.

(** With [node] unbound, the first turn of the loop raises. *)
Lemma ancestors_imported_inner fuel n x :
  h !! n = Some x → children x ≠ [] →
  ancestors imported (S fuel) h n = Raises (NameError "node").
Proof.
  intros Hn Hc. unfold ancestors. cbn [ancestors_loop].
  rewrite (truthy_Some n x Hn). by destruct (children x).
Qed.

(** With [node] bound to [v], every element the loop inserts is [v]. *)
Lemma ancestors_loop_bound v fuel : ∀ node_ parents ps,
  ancestors_loop {| g_node := Some v |} fuel h node_ parents = Returns ps →
  ∃ k, ps = replicate k v ++ parents.
Proof.
  induction fuel as [|fuel IH]; intros node_ parents ps E; [done|].
  cbn [ancestors_loop g_node] in E.
  destruct (truthy h node_).
  - apply IH in E as [k ->]. exists (S k).
    rewrite replicate_S_end. by rewrite <- app_assoc.
  - simplify_eq. by exists 0.
Qed.

(** [root] is the head of what [ancestors] returns, the empty list when
    that is empty, and raises when [ancestors] raises. *)
Lemma root_eq g fuel n :
  root g fuel h n =
  match ancestors g fuel h n with
  | Returns ps => Returns (from_option RootNode EmptyList (head ps))
  | Raises e => Raises e
  | OutOfFuel => OutOfFuel
  end.
Proof. unfold root. by destruct (ancestors g fuel h n) as [[|? ?]| |]. Qed.

End Ancestors.

(** ** Properties of the constructed Tree *)

(** C2.  Records with unique ids and no dangling [parent_id]: after
    [Tree(items)], a node whose [parent_id] is [p] has a [parent] that is the
    one node with id [p], and it occurs exactly once in the children of
    that node. *)
Theorem parent_child_round_trip (items : list Item) (j : ref) (x : Node) (p : Z) :
  unique_ids items →
  no_dangling items →
  Tree_init items !! j = Some x →
  parent_id x = Some p →
  ∃ i y,
    parent x = Some i ∧
    Tree_init items !! i = Some y ∧
    id y = p ∧
    (∀ i' y', Tree_init items !! i' = Some y' → id y' = p → i' = i) ∧
    count_occ Nat.eq_dec (children y) j = 1.
Proof.
  intros Hu Hd Hj Hp.
  pose proof (Tree_init_lookup_inv _ _ _ Hj) as Hj'.
  assert (p ∈ item_id <$> items) as Hin.
  { apply (Hd (item_of x)); [by eapply list_elem_of_lookup_2|done]. }
  apply list_elem_of_fmap in Hin as (a & -> & Ha).
  apply list_elem_of_lookup in Ha as [i Hi].
  destruct (Tree_init_lookup _ _ _ Hi) as (y & Hy & Ey).
  assert (names_parent items i j = true) as Hij.
  { apply names_parent_true. by exists a, (item_of x). }
  exists i, y. split_and!.
  - assert (parent_of (Tree_init items) j = parent x) as <-
      by (unfold parent_of; by rewrite Hj).
    rewrite Tree_init_parent. apply last_parent_unique; [|done|].
    + apply elem_of_seq. apply lookup_lt_Some in Hi. lia.
    + intros n' Hn'. by eapply names_parent_unique.
  - done.
  - by rewrite <- Ey.
  - intros i' y' Hy' E. apply Tree_init_lookup_inv in Hy'.
    by eapply (unique_ids_lookup items i' i).
  - assert (children y = children_of (Tree_init items) i) as ->
      by (unfold children_of; by rewrite Hy).
    apply NoDup_count_occ'; [apply NoDup_ListNoDup, Tree_init_children_NoDup|].
    apply list_elem_of_In. by apply Tree_init_child.
Qed.

(** C9.  A record whose [parent_id] is the id of no record: [Tree(items)]
    is built all the same (the construction is a total function and raises
    nothing), holds one node per record, the node of that record sits at the
    position of the record, and its [parent] is [None]. *)
Theorem dangling_parent_stays_unset (items : list Item) (j : nat) (it : Item) (p : Z) :
  items !! j = Some it →
  item_parent_id it = Some p →
  (∀ it', it' ∈ items → item_id it' ≠ p) →
  length (Tree_init items) = length items ∧
  ∃ x, Tree_init items !! j = Some x ∧
       id x = item_id it ∧ title x = item_title it ∧
       parent_id x = Some p ∧
       parent x = None.
Proof.
  intros Hj Hp Hno. split; [apply Tree_init_length|].
  destruct (Tree_init_lookup _ _ _ Hj) as (x & Hx & <-).
  exists x. split_and!; try done.
  assert (parent_of (Tree_init items) j = parent x) as <-
    by (unfold parent_of; by rewrite Hx).
  rewrite Tree_init_parent. apply last_parent_none.
  intros n. apply not_true_is_false.
  intros (a & b & Hn & Hb & E)%names_parent_true.
  rewrite Hj in Hb. simplify_eq. simpl in *.
  apply (Hno a); [by eapply list_elem_of_lookup_2|]. congruence.
Qed.

(** C5.  Records with unique ids whose chains of [parent_id] links all end
    (none dangles, none runs into a cycle): on the Tree as constructed, a
    full enumeration of [descendants n] ends, whatever the fuel beyond some
    bound, and yields without repetition exactly the nodes reachable from
    [n] through [children]; [n] is not among them. *)
Theorem descendants_complete (items : list Item) (n : ref) :
  unique_ids items →
  acyclic items →
  ∃ k ys h',
    (∀ fuel, k ≤ fuel → descendants fuel (Tree_init items) n = Some (ys, h')) ∧
    NoDup ys ∧
    (∀ x, x ∈ ys ↔ reachable (Tree_init items) n x) ∧
    n ∉ ys.
Proof.
  intros Hu Hac.
  apply (descendants_forest (Tree_init items) (par_index items)
           (depth items) (length items)).
  - intros i c Hc%Tree_init_child. by apply names_parent_par.
  - intros i c Hc%Tree_init_child. apply depth_step; [done|].
    by apply names_parent_par.
  - intros i c Hc%Tree_init_child. apply depth_lt; [done|].
    apply names_parent_lt in Hc. lia.
  - apply Tree_init_children_NoDup.
Qed.

(** C10.  A node without children is false in [while node_:], so
    [ancestors] returns the empty list for it: whatever its parent, whatever
    the store and whatever the module globals. *)
Theorem ancestors_of_leaf (g : globals) (fuel : nat) (h : list Node) (n : ref) (x : Node) :
  h !! n = Some x →
  children x = [] →
  ancestors g (S fuel) h n = Returns [].
Proof.
  intros Hn Hc. unfold ancestors. cbn [ancestors_loop].
  unfold truthy, Node_len. by rewrite Hn, Hc.
Qed.

(** ** The sample tree *)

Lemma parent_child_round_trip_witness :
  ∃ i y,
    parent (mkNode 5 "Category #5" (Some 3%Z) (Some (weakref_ref 2)) [7; 8])
      = Some i ∧
    Tree_init data !! i = Some y ∧
    id y = 3%Z ∧
    (∀ i' y', Tree_init data !! i' = Some y' → id y' = 3%Z → i' = i) ∧
    count_occ Nat.eq_dec (children y) 4 = 1.
Proof.
  apply (parent_child_round_trip data 4
           (mkNode 5 "Category #5" (Some 3%Z) (Some (weakref_ref 2)) [7; 8])
           3%Z).
  - unfold unique_ids. decide_by_computation.
  - intros it p Hit Hp. unfold data in Hit.
    repeat (apply elem_of_cons in Hit as [->|Hit];
            [simpl in Hp; simplify_eq; try (vm_compute; set_solver)|]).
    by apply elem_of_nil in Hit.
  - by vm_compute.
  - reflexivity.
Defined.

Lemma dangling_parent_stays_unset_witness :
  length (Tree_init [mkItem 1 "a" None; mkItem 2 "b" (Some 7%Z)]) = 2 ∧
  ∃ x, Tree_init [mkItem 1 "a" None; mkItem 2 "b" (Some 7%Z)] !! 1 = Some x ∧
       id x = 2%Z ∧ title x = "b" ∧ parent_id x = Some 7%Z ∧ parent x = None.
Proof.
  apply (dangling_parent_stays_unset
           [mkItem 1 "a" None; mkItem 2 "b" (Some 7%Z)] 1
           (mkItem 2 "b" (Some 7%Z)) 7%Z).
  - reflexivity.
  - reflexivity.
  - intros it' Hit.
    repeat (apply elem_of_cons in Hit as [->|Hit]; [by vm_compute|]).
    by apply elem_of_nil in Hit.
Defined.

Lemma descendants_complete_witness :
  ∃ k ys h',
    (∀ fuel, k ≤ fuel → descendants fuel (Tree_init data) (the_node 2)
                        = Some (ys, h')) ∧
    NoDup ys ∧
    (∀ x, x ∈ ys ↔ reachable (Tree_init data) (the_node 2) x) ∧
    the_node 2 ∉ ys.
Proof.
  apply (descendants_complete data (the_node 2)).
  - unfold unique_ids. decide_by_computation.
  - intros x Hx.
    do 9 (destruct x as [|x]; [vm_compute; eauto|]).
    simpl in Hx. lia.
Defined.

Lemma ancestors_of_leaf_witness :
  ancestors imported 1 tree (the_node 8) = Returns [].
Proof.
  apply (ancestors_of_leaf imported 0 tree (the_node 8)
           (mkNode 8 "Category #8" (Some 5%Z) (Some (weakref_ref 4)) [])).
  - by vm_compute.
  - reflexivity.
Defined.

(** C1.  On the sample, before the enumeration node 3 has the child node 5
    and node 5 has the children 8 and 9; a full enumeration of
    [descendants(node 1)] pops both lists empty. *)
Theorem descendants_empties_children :
  ∃ h',
    descendants 20 tree (the_node 1)
      = Some ([the_node 3; the_node 5; the_node 8; the_node 9], h') ∧
    children_of tree (the_node 3) = [the_node 5] ∧
    children_of h' (the_node 3) = [] ∧
    children_of tree (the_node 5) = [the_node 8; the_node 9] ∧
    children_of h' (the_node 5) = [].
Proof.
  exists (default tree (snd <$> descendants 20 tree (the_node 1))).
  split_and!; by vm_compute.
Qed.

(** C6.  On the sample, a first full enumeration of [descendants(node 2)]
    yields the nodes 4, 6 and 7; a second one, on the store the first left,
    yields node 4 alone. *)
Theorem descendants_twice_differ :
  ∃ h1 h2,
    descendants 20 tree (the_node 2)
      = Some ([the_node 4; the_node 6; the_node 7], h1) ∧
    descendants 20 h1 (the_node 2) = Some ([the_node 4], h2).
Proof.
  set (h1 := default tree (snd <$> descendants 20 tree (the_node 2))).
  exists h1, (default tree (snd <$> descendants 20 h1 (the_node 2))).
  split; by vm_compute.
Qed.

(** C3.  On the sample, node 3 is at depth 1 and has a child: [ancestors]
    raises [NameError] in the imported module, and returns the global
    [node] twice in the module run as a script.  Node 8 is at depth 3 and
    has no child: [ancestors] returns the empty list. *)
Theorem ancestors_not_the_ancestors :
  ancestors imported 20 tree (the_node 3) = Raises (NameError "node") ∧
  ancestors (run_as_main tree) 20 tree (the_node 3)
    = Returns [the_node 9; the_node 9] ∧
  parent_of tree (the_node 8) = Some (the_node 5) ∧
  ancestors imported 20 tree (the_node 8) = Returns [].
Proof. by vm_compute. Qed.

(** C4.  On the sample, in the imported module, [ancestors(node 5)] and
    [root(node 5)] raise [NameError]. *)
Theorem ancestors_raises_NameError :
  ancestors imported 20 tree (the_node 5) = Raises (NameError "node") ∧
  root imported 20 tree (the_node 5) = Raises (NameError "node").
Proof. by vm_compute. Qed.

(** C7.  On the sample, node 1 has no parent; [root(node 1)] raises
    [NameError] in the imported module and returns node 9 in the module run
    as a script: in neither is it the empty list. *)
Theorem root_of_a_root :
  parent_of tree (the_node 1) = None ∧
  root imported 20 tree (the_node 1) = Raises (NameError "node") ∧
  root (run_as_main tree) 20 tree (the_node 1) = Returns (RootNode (the_node 9)).
Proof. by vm_compute. Qed.

(** C8.  On the sample, [ancestors(node 5)] raises [NameError] in the
    imported module and returns three times node 9 in the module run as a
    script; [root(node 8)] returns the empty list in both. *)
Theorem sample_ancestors_and_root :
  ancestors imported 20 tree (the_node 5) = Raises (NameError "node") ∧
  ancestors (run_as_main tree) 20 tree (the_node 5)
    = Returns [the_node 9; the_node 9; the_node 9] ∧
  root imported 20 tree (the_node 8) = Returns EmptyList ∧
  root (run_as_main tree) 20 tree (the_node 8) = Returns EmptyList.
Proof. by vm_compute. Qed.

(** ** What a full enumeration of [descendants] does to the store *)

Section DescendantsEffects.

Lemma prepend_Some a r ys h' :
  prepend a r = Some (ys, h') → ∃ zs, r = Some (zs, h') ∧ ys = a ++ zs.
Proof.
  destruct r as [[zs h2]|]; [|done]. simpl. intros [= <- <-]. by exists zs.
Qed.

(** One turn of the loop, read backwards from its result. *)
Lemma loop_inv fuel h stack ys h' :
  descendants_loop (S fuel) h stack = Some (ys, h') →
  (stack = [] ∧ ys = [] ∧ h' = h) ∨
  (∃ top below,
     stack = top :: below ∧ frame_list h top = [] ∧
     descendants_loop fuel h below = Some (ys, h')) ∨
  (∃ top below c rest ys',
     stack = top :: below ∧ frame_list h top = c :: rest ∧ ys = c :: ys' ∧
     descendants_loop fuel (frame_store h top rest).1
       (push_child (frame_store h top rest).1 c
          ((frame_store h top rest).2 :: below)) = Some (ys', h')).
Proof.
  intros E. destruct stack as [|top below].
  { left. simpl in E. by simplify_eq. }
  right. destruct (frame_list h top) as [|c rest] eqn:El.
  - left. rewrite loop_pop in E by done. by exists top, below.
  - right. rewrite (loop_yield _ _ _ _ c rest El) in E.
    apply prepend_Some in E as (ys' & E & ->).
    by exists top, below, c, rest, ys'.
Qed.

Lemma push_child_incl h c stack f : f ∈ stack → f ∈ push_child h c stack.
Proof.
  unfold push_child. destruct (children_of h c); [done|].
  intros ?. apply elem_of_cons. by right.
Qed.

Lemma push_child_elem h c stack x :
  Shared x ∈ push_child h c stack → x = c ∨ Shared x ∈ stack.
Proof.
  unfold push_child. destruct (children_of h c); [by right|].
  intros [E|?]%elem_of_cons; [left; congruence|by right].
Qed.

Lemma frame_store_items h top rest :
  item_of <$> (frame_store h top rest).1 = item_of <$> h.
Proof. destruct top as [l|r]; [done|]. simpl. by apply fmap_item_of_alter. Qed.

Lemma frame_store_parent h top rest x :
  parent_of (frame_store h top rest).1 x = parent_of h x.
Proof.
  destruct top as [l|r]; [done|]. simpl. rewrite parent_of_alter.
  case_decide; [|done]. unfold parent_of. by destruct (h !! x).
Qed.

(** The loop writes to no field other than [children]. *)
Lemma loop_keeps_records fuel : ∀ h stack ys h',
  descendants_loop fuel h stack = Some (ys, h') →
  item_of <$> h' = item_of <$> h ∧ ∀ x, parent_of h' x = parent_of h x.
Proof.
  induction fuel as [|fuel IH]; intros h stack ys h' E; [done|].
  apply loop_inv in E
    as [(_ & _ & ->)|[(top & below & _ & _ & E)|
         (top & below & c & rest & ys' & _ & _ & _ & E)]].
  - done.
  - by eapply IH.
  - apply IH in E as [E1 E2]. split.
    + by rewrite E1, frame_store_items.
    + intros x. by rewrite E2, frame_store_parent.
Qed.

(** A children list that is empty stays empty: the loop never appends. *)
Lemma loop_keeps_empty fuel : ∀ h stack ys h' x,
  descendants_loop fuel h stack = Some (ys, h') →
  children_of h x = [] → children_of h' x = [].
Proof.
  induction fuel as [|fuel IH]; intros h stack ys h' x E Hx; [done|].
  apply loop_inv in E
    as [(_ & _ & ->)|[(top & below & _ & _ & E)|
         (top & below & c & rest & ys' & _ & El & _ & E)]].
  - done.
  - by eapply IH.
  - eapply IH; [exact E|]. rewrite frame_store_children; [done|].
    intros ->. simpl in El. congruence.
Qed.

(** The nodes that were not yielded and own no frame keep their children. *)
Lemma loop_keeps_others fuel : ∀ h stack ys h' x,
  descendants_loop fuel h stack = Some (ys, h') →
  x ∉ ys → Shared x ∉ stack →
  children_of h' x = children_of h x.
Proof.
  induction fuel as [|fuel IH]; intros h stack ys h' x E Hy Hs; [done|].
  apply loop_inv in E
    as [(_ & _ & ->)|[(top & below & -> & _ & E)|
         (top & below & c & rest & ys' & -> & El & -> & E)]].
  - done.
  - eapply IH; [exact E|done|]. set_solver.
  - rewrite (IH _ _ _ _ x E).
    + apply frame_store_children. set_solver.
    + set_solver.
    + intros [->|Hin]%push_child_elem; [set_solver|].
      apply elem_of_cons in Hin as [Hin|Hin]; [|set_solver].
      symmetry in Hin. apply frame_store_kind in Hin. set_solver.
Qed.

(** The nodes that were yielded, and the owners of the frames, end with no
    children. *)
Lemma loop_empties fuel : ∀ h stack ys h' x,
  descendants_loop fuel h stack = Some (ys, h') →
  x ∈ ys ∨ Shared x ∈ stack →
  children_of h' x = [].
Proof.
  induction fuel as [|fuel IH]; intros h stack ys h' x E Hx; [done|].
  apply loop_inv in E
    as [(-> & -> & ->)|[(top & below & -> & El & E)|
         (top & below & c & rest & ys' & -> & El & -> & E)]].
  - destruct Hx as [Hx|Hx]; by apply elem_of_nil in Hx.
  - destruct Hx as [Hx|[<-|Hx]%elem_of_cons].
    + eapply IH; [exact E|by left].
    + by eapply loop_keeps_empty.
    + eapply IH; [exact E|by right].
  - set (h1 := (frame_store h top rest).1) in *.
    set (top1 := (frame_store h top rest).2) in *.
    assert (Hown : Shared x ∈ top :: below →
                   Shared x ∈ push_child h1 c (top1 :: below)).
    { intros [Hin|Hin]%elem_of_cons; apply push_child_incl.
      - apply elem_of_cons. left. symmetry. apply frame_store_kind. by symmetry.
      - apply elem_of_cons. by right. }
    destruct Hx as [[->|Hx]%elem_of_cons|Hx].
    + destruct (children_of h1 c) as [|c1 lc] eqn:Ec.
      * by eapply loop_keeps_empty.
      * eapply IH; [exact E|]. right. unfold push_child. rewrite Ec.
        apply elem_of_cons. by left.
    + eapply IH; [exact E|by left].
    + eapply IH; [exact E|]. right. by apply Hown.
Qed.

(** Enumerating over nodes that have no children yields just them. *)
Lemma loop_flat l : ∀ h fuel,
  (∀ c, c ∈ l → children_of h c = []) →
  length l + 2 ≤ fuel →
  descendants_loop fuel h [Copy l] = Some (l, h).
Proof.
  induction l as [|c l IH]; intros h fuel Hl Hf.
  - destruct fuel as [|[|fuel]]; [simpl in Hf; lia..|]. reflexivity.
  - destruct fuel as [|fuel]; [simpl in Hf; lia|].
    rewrite (loop_yield _ _ _ _ c l) by done. simpl.
    unfold push_child. rewrite Hl by set_solver.
    rewrite IH; [done| |simpl in Hf; lia].
    intros c' Hc'. apply Hl. set_solver.
Qed.

End DescendantsEffects.

(** ** The order of an enumeration, and the enumeration after it *)

Section ForestEnumeration.

Variable h : list Node.
Variable par : ref → option ref.
Variable D : ref → nat.
Variable N : nat.
Hypothesis Hpar : ∀ i c, child h i c → par c = Some i.
Hypothesis HD : ∀ i c, child h i c → D c = S (D i).
Hypothesis HN : ∀ i c, child h i c → D c < N.
Hypothesis Hnd : ∀ i, NoDup (children_of h i).

Lemma forest_run n :
  ∃ k h',
    (∀ fuel, k ≤ fuel →
       descendants fuel h n = Some (pre N h (children_of h n), h')) ∧
    children_of h' n = children_of h n ∧
    (∀ c, c ∈ children_of h n → children_of h' c = []).
Proof.
  assert (Hk : ∀ c, c ∈ children_of h n → D c = S (D n))
    by (intros; by apply HD).
  assert (Hb : bounded N h (children_of h n)).
  { apply (pre_bounded h par D N Hpar HD HN Hnd N (S (D n))); [done| |lia].
    intros c Hc. by apply (HN n). }
  assert (Hnd' : NoDup (pre N h (children_of h n))).
  { by apply (pre_NoDup h par D N Hpar HD HN Hnd N (S (D n))). }
  assert (Hn : n ∉ pre N h (children_of h n)).
  { intros Hin.
    apply (pre_level h par D Hpar HD N (S (D n))) in Hin as [Hle _];
      [lia|done]. }
  destruct (loop_frame N (children_of h n) h (Copy (children_of h n)) [])
    as (k & h' & Hrun & Hag); [done..|].
  assert (Hfull : ∀ fuel, S k ≤ fuel →
            descendants fuel h n = Some (pre N h (children_of h n), h')).
  { intros fuel Hf. unfold descendants.
    replace fuel with (k + S (fuel - S k)) by lia.
    rewrite Hrun. simpl. by rewrite app_nil_r. }
  exists (S k), h'. split_and!.
  - done.
  - by apply Hag.
  - intros c Hc. pose proof (Hfull (S k) (le_n _)) as E.
    unfold descendants in E. eapply (loop_empties (S k)); [exact E|].
    left. apply elem_of_pre; [done|]. by exists c.
Qed.

Lemma forest_second_run n :
  ∃ k ys h',
    (∀ fuel, k ≤ fuel → descendants fuel h n = Some (ys, h')) ∧
    (∀ fuel, k ≤ fuel → descendants fuel h' n = Some (children_of h n, h')).
Proof.
  destruct (forest_run n) as (k & h' & Hrun & Hn & Hc).
  exists (k + length (children_of h n) + 2), (pre N h (children_of h n)), h'.
  split.
  - intros fuel Hf. apply Hrun. lia.
  - intros fuel Hf. unfold descendants. rewrite Hn.
    apply loop_flat; [done|lia].
Qed.

End ForestEnumeration.

(** ** More on records, parents and depth *)

Section RecordsParents.

Variable items : list Item.

Lemma find_id_None p a : find_id items p = None → a ∈ items → item_id a ≠ p.
Proof.
  unfold find_id. intros E Ha.
  destruct (list_find (λ it, item_id it = p) items) eqn:El; [done|].
  apply list_find_None in El. by eapply (proj1 (Forall_forall _ _) El).
Qed.

Lemma par_index_names x i :
  par_index items x = Some i → names_parent items i x = true.
Proof.
  unfold par_index. destruct (items !! x) as [b|] eqn:Hx; [|done]. simpl.
  destruct (item_parent_id b) as [p|] eqn:Hp; [|done]. simpl.
  intros (a & Ha & <-)%find_id_Some. apply names_parent_true.
  by exists a, b.
Qed.

Lemma par_index_None_names x n :
  par_index items x = None → names_parent items n x = false.
Proof.
  intros Hx. apply not_true_is_false.
  intros (a & b & Ha & Hb & E)%names_parent_true.
  unfold par_index in Hx. rewrite Hb in Hx. simpl in Hx.
  rewrite E in Hx. simpl in Hx.
  by eapply (find_id_None _ a Hx); [eapply list_elem_of_lookup_2|].
Qed.

Lemma last_parent_skip x acc l :
  (∀ n, n ∈ l → names_parent items n x = false) →
  last_parent items x acc l = acc.
Proof.
  unfold last_parent. revert acc.
  induction l as [|m l IH]; intros acc Hl; [done|].
  simpl. rewrite (Hl m) by set_solver. apply IH.
  intros n Hn. apply Hl. set_solver.
Qed.

Lemma last_parent_acc x acc l :
  last_parent items x acc l =
  from_option Some acc (last_parent items x None l).
Proof.
  unfold last_parent.
  induction l as [|m l IH] using rev_ind; [done|].
  rewrite !foldl_snoc. by destruct (names_parent items m x).
Qed.

Lemma last_parent_last x acc n i :
  i < n → names_parent items i x = true →
  (∀ i', i < i' → names_parent items i' x = false) →
  last_parent items x acc (seq 0 n) = Some i.
Proof.
  intros Hi Hx Hlater.
  replace n with (i + (1 + (n - S i))) by lia.
  rewrite !seq_app. unfold last_parent. rewrite !foldl_app.
  simpl. rewrite Hx. apply last_parent_skip.
  intros m Hm%elem_of_seq. apply Hlater. lia.
Qed.

(** With unique ids the [parent] of a node is the record its [parent_id]
    names, and is absent when it names none. *)
Lemma Tree_init_parent_par x :
  unique_ids items → parent_of (Tree_init items) x = par_index items x.
Proof.
  intros Hu. rewrite Tree_init_parent.
  destruct (par_index items x) as [i|] eqn:Hp.
  - apply par_index_names in Hp as Hn.
    apply last_parent_unique; [|done|].
    + apply names_parent_lt in Hn. apply elem_of_seq. lia.
    + intros n' Hn'. by eapply names_parent_unique.
  - apply last_parent_none. intros n. by apply par_index_None_names.
Qed.

Lemma depth_root x :
  acyclic items → x < length items → par_index items x = None →
  depth items x = 0.
Proof.
  intros Hac Hlt Hp. destruct (Hac x Hlt) as [k Hk]. unfold depth.
  rewrite Hk. simpl.
  destruct (length items) as [|fuel]; [done|].
  cbn [depth_of] in Hk. unfold par_index in Hp.
  destruct (items !! x) as [it|]; [|done]. simpl in Hp.
  destruct (item_parent_id it) as [p|]; [|by simplify_eq]. simpl in Hp.
  by rewrite Hp in Hk.
Qed.

End RecordsParents.

(** ** What [ancestors] computes *)

Section AncestorsBound.

Variable h : list Node.
Variable g : globals.
Variable v : ref.
Hypothesis Hg : g_node g = Some v.

Lemma ancestors_loop_turn fuel m ps :
  children_of h m ≠ [] →
  ancestors_loop g (S fuel) h (Some m) ps =
  ancestors_loop g fuel h (parent_of h m) (v :: ps).
Proof.
  intros Hm. cbn [ancestors_loop]. rewrite Hg.
  unfold truthy, children_of, Node_len in *.
  destruct (h !! m) as [x|]; [|done]. simpl in Hm.
  by destruct (children x).
Qed.

Lemma ancestors_loop_stop fuel ps :
  ancestors_loop g (S fuel) h None ps = Returns ps.
Proof. reflexivity. Qed.

(** A set of nodes with children that is closed under [parent]: the walk
    never leaves it. *)
Lemma ancestors_loop_cycle (P : ref → Prop) :
  (∀ m, P m → children_of h m ≠ [] ∧ ∃ p, parent_of h m = Some p ∧ P p) →
  ∀ fuel m ps, P m → ancestors_loop g fuel h (Some m) ps = OutOfFuel.
Proof.
  intros HP. induction fuel as [|fuel IH]; intros m ps Hm; [done|].
  destruct (HP m Hm) as (Hc & p & Hp & HPp).
  rewrite ancestors_loop_turn by done. rewrite Hp. by apply IH.
Qed.

End AncestorsBound.

Lemma ancestors_loop_values g fuel h : ∀ node_ parents ps,
  ancestors_loop g fuel h node_ parents = Returns ps →
  ∃ k, ps = replicate k (default 0 (g_node g)) ++ parents ∧
       (k = 0 ∨ is_Some (g_node g)).
Proof.
  induction fuel as [|fuel IH]; intros node_ parents ps E; [done|].
  cbn [ancestors_loop] in E. destruct (truthy h node_).
  - destruct (g_node g) as [v|] eqn:Hg; [|done].
    apply IH in E as (k & -> & _). exists (S k). split; [|right; eauto].
    rewrite replicate_S_end. simpl. by rewrite <- app_assoc.
  - simplify_eq. exists 0. split; [done|by left].
Qed.

Section AncestorsOnTree.

Variable items : list Item.
Variable g : globals.
Variable v : ref.
Hypothesis Hg : g_node g = Some v.
Hypothesis Hu : unique_ids items.
Hypothesis Hac : acyclic items.

Lemma ancestors_loop_climb d : ∀ m ps fuel,
  depth items m = d →
  children_of (Tree_init items) m ≠ [] →
  d + 2 ≤ fuel →
  ancestors_loop g fuel (Tree_init items) (Some m) ps =
  Returns (replicate (S d) v ++ ps).
Proof.
  induction d as [|d IH]; intros m ps fuel Hd Hm Hf.
  - destruct fuel as [|[|fuel]]; [lia..|].
    rewrite (ancestors_loop_turn _ g v Hg) by done.
    rewrite Tree_init_parent_par by done.
    destruct (par_index items m) as [p|] eqn:Hp.
    + rewrite (depth_step items m p Hac Hp) in Hd. lia.
    + reflexivity.
  - destruct fuel as [|fuel]; [lia|].
    rewrite (ancestors_loop_turn _ g v Hg) by done.
    rewrite Tree_init_parent_par by done.
    destruct (par_index items m) as [p|] eqn:Hp.
    + rewrite (IH p (v :: ps) fuel).
      * rewrite (replicate_S_end (S d)). by rewrite <- app_assoc.
      * rewrite (depth_step items m p Hac Hp) in Hd. lia.
      * apply par_index_names, Tree_init_child in Hp.
        unfold child in Hp. intros E. rewrite E in Hp.
        by apply elem_of_nil in Hp.
      * lia.
    + rewrite depth_root in Hd; [lia|done| |done].
      destruct (children_of (Tree_init items) m) as [|c lc] eqn:Ec; [done|].
      assert (child (Tree_init items) m c) as Hc
        by (unfold child; rewrite Ec; set_solver).
      apply Tree_init_child, names_parent_lt in Hc. lia.
Qed.

End AncestorsOnTree.

(** ** Further properties of the construction *)

(** X1.  [Tree(items)] holds one node per record, in input order, each with
    the [id], [title] and [parent_id] of its record; this holds for every
    list of records, the empty one and those with repeated ids included. *)
Theorem Tree_nodes_follow_records (items : list Item) :
  length (Tree_init items) = length items ∧
  item_of <$> Tree_init items = items.
Proof. split; [apply Tree_init_length|apply Tree_init_items]. Qed.

(** X2.  [children(n)] of the constructed Tree lists the nodes whose
    [parent_id] equals the [id] of [n], in input order and without
    repetition, whatever the records. *)
Theorem Tree_children_in_input_order (items : list Item) (i : ref) :
  Tree_children (Tree_init items) i =
    filter (λ x, names_parent items i x) (seq 0 (length items)) ∧
  NoDup (Tree_children (Tree_init items) i).
Proof.
  unfold Tree_children.
  split; [apply Tree_init_children|apply Tree_init_children_NoDup].
Qed.

(** X3.  A record with a null [parent_id] gives a node whose [parent] is
    [None] and which is in no [children] list. *)
Theorem null_parent_id_node_is_detached (items : list Item) (j : nat) (it : Item) :
  items !! j = Some it →
  item_parent_id it = None →
  parent_of (Tree_init items) j = None ∧
  ∀ i, j ∉ Tree_children (Tree_init items) i.
Proof.
  intros Hj Hp.
  assert (∀ n, names_parent items n j = false) as Hno.
  { intros n. apply not_true_is_false.
    intros (a & b & _ & Hb & E)%names_parent_true. congruence. }
  split.
  - rewrite Tree_init_parent. by apply last_parent_none.
  - intros i Hi%Tree_init_child. by rewrite Hno in Hi.
Qed.

Lemma null_parent_id_node_is_detached_witness :
  parent_of (Tree_init data) 0 = None ∧
  ∀ i, 0 ∉ Tree_children (Tree_init data) i.
Proof.
  apply (null_parent_id_node_is_detached data 0 (mkItem 1 "Category #1" None)).
  - reflexivity.
  - reflexivity.
Defined.

(** X4.  With unique ids no node is a child of two different nodes. *)
Theorem child_of_one_node (items : list Item) (i i' j : ref) :
  unique_ids items →
  i ≠ i' →
  child (Tree_init items) i j →
  ¬ child (Tree_init items) i' j.
Proof.
  intros Hu Hne Hi%Tree_init_child Hi'%Tree_init_child.
  apply Hne. by eapply names_parent_unique.
Qed.

Lemma child_of_one_node_witness : ¬ child (Tree_init data) 0 4.
Proof.
  apply (child_of_one_node data 2 0 4).
  - unfold unique_ids. decide_by_computation.
  - lia.
  - unfold child. decide_by_computation.
Defined.

(** X5.  When several records carry the id that a record names as its
    parent, the node becomes a child of each of them and its [parent] is the
    last of them in input order. *)
Theorem repeated_id_last_parent_wins (items : list Item) (i j : ref) :
  names_parent items i j = true →
  (∀ i', i < i' → names_parent items i' j = false) →
  parent_of (Tree_init items) j = Some i ∧
  ∀ i', names_parent items i' j = true → j ∈ Tree_children (Tree_init items) i'.
Proof.
  intros Hi Hlater. split.
  - rewrite Tree_init_parent. apply last_parent_last; [|done..].
    apply names_parent_lt in Hi. lia.
  - intros i' Hi'. by apply Tree_init_child.
Qed.

Lemma repeated_id_last_parent_wins_witness :
  parent_of (Tree_init [mkItem 1 "a" None; mkItem 1 "b" None;
                        mkItem 2 "c" (Some 1%Z)]) 2 = Some 1 ∧
  ∀ i', names_parent [mkItem 1 "a" None; mkItem 1 "b" None;
                      mkItem 2 "c" (Some 1%Z)] i' 2 = true →
        2 ∈ Tree_children (Tree_init [mkItem 1 "a" None; mkItem 1 "b" None;
                                      mkItem 2 "c" (Some 1%Z)]) i'.
Proof.
  apply (repeated_id_last_parent_wins
           [mkItem 1 "a" None; mkItem 1 "b" None; mkItem 2 "c" (Some 1%Z)] 1 2).
  - reflexivity.
  - intros i' Hi'. destruct i' as [|[|[|i']]]; [lia|lia|reflexivity..].
Defined.

(** X6.  [populate_children] is not idempotent: run once more on the
    constructed Tree it appends every child a second time, and leaves every
    [parent] as it was. *)
Theorem populate_children_again_doubles (items : list Item) (i : ref) :
  children_of (populate_children (Tree_init items)) i =
    children_of (Tree_init items) i ++ children_of (Tree_init items) i ∧
  parent_of (populate_children (Tree_init items)) i =
    parent_of (Tree_init items) i.
Proof.
  unfold populate_children. split.
  - rewrite fold_populate_children by apply NoDup_seq.
    rewrite Tree_init_items, Tree_init_length.
    rewrite <- Tree_init_children. case_decide as Hi; [done|].
    rewrite Tree_init_children, filter_none; [done|].
    intros x _ Hx. apply Is_true_true, names_parent_lt in Hx.
    apply Hi, elem_of_seq. lia.
  - rewrite fold_populate_parent, Tree_init_items, Tree_init_length.
    rewrite last_parent_acc, Tree_init_parent.
    by destruct (last_parent items i None (seq 0 (length items))).
Qed.

(** ** Further properties of [descendants] *)

(** X7.  On the Tree constructed from records with unique ids and ending
    parent chains, [descendants(n)] yields in depth-first preorder: each
    child of [n] in input order, followed at once by its own descendants. *)
Theorem descendants_in_preorder (items : list Item) (n : ref) :
  unique_ids items →
  acyclic items →
  ∃ k h', ∀ fuel, k ≤ fuel →
    descendants fuel (Tree_init items) n =
    Some (pre (length items) (Tree_init items)
            (Tree_children (Tree_init items) n), h').
Proof.
  intros Hu Hac.
  destruct (forest_run (Tree_init items) (par_index items)
              (depth items) (length items)) with (n := n)
    as (k & h' & Hrun & _).
  - intros i c Hc%Tree_init_child. by apply names_parent_par.
  - intros i c Hc%Tree_init_child. apply depth_step; [done|].
    by apply names_parent_par.
  - intros i c Hc%Tree_init_child. apply depth_lt; [done|].
    apply names_parent_lt in Hc. lia.
  - apply Tree_init_children_NoDup.
  - by exists k, h'.
Qed.

Lemma descendants_in_preorder_witness :
  ∃ k h', ∀ fuel, k ≤ fuel →
    descendants fuel (Tree_init data) (the_node 1) =
    Some (pre (length data) (Tree_init data)
            (Tree_children (Tree_init data) (the_node 1)), h').
Proof.
  apply (descendants_in_preorder data (the_node 1)).
  - unfold unique_ids. decide_by_computation.
  - intros x Hx.
    do 9 (destruct x as [|x]; [vm_compute; eauto|]).
    simpl in Hx. lia.
Defined.

(** X8.  A full enumeration of [descendants] writes to nothing but
    [children] lists: the number of nodes, every [id], [title] and
    [parent_id] and every [parent] are as before, on any store. *)
Theorem descendants_writes_children_only (fuel : nat) (h : list Node) (n : ref)
    (ys : list ref) (h' : list Node) :
  descendants fuel h n = Some (ys, h') →
  length h' = length h ∧
  item_of <$> h' = item_of <$> h ∧
  ∀ x, parent_of h' x = parent_of h x.
Proof.
  intros E. apply loop_keeps_records in E as [E1 E2]. split_and!; [|done..].
  by rewrite <- (length_fmap item_of), E1, length_fmap.
Qed.

(** X9.  A full enumeration of [descendants] leaves the [children] list of
    every node it did not yield as it was, on any store. *)
Theorem descendants_spares_unyielded (fuel : nat) (h : list Node) (n : ref)
    (ys : list ref) (h' : list Node) (x : ref) :
  descendants fuel h n = Some (ys, h') →
  x ∉ ys →
  children_of h' x = children_of h x.
Proof.
  intros E Hx. eapply loop_keeps_others; [exact E|done|].
  intros Hin. apply list_elem_of_singleton in Hin. done.
Qed.

(** X10.  After a full enumeration of [descendants], every node that was
    yielded has an empty [children] list, on any store. *)
Theorem descendants_empties_yielded (fuel : nat) (h : list Node) (n : ref)
    (ys : list ref) (h' : list Node) (x : ref) :
  descendants fuel h n = Some (ys, h') →
  x ∈ ys →
  children_of h' x = [].
Proof. intros E Hx. eapply loop_empties; [exact E|by left]. Qed.

(** X11.  On the Tree constructed from records with unique ids and ending
    parent chains, a full enumeration of [descendants(n)] that follows a
    first one yields the children of [n] and nothing else, and changes the
    store no further. *)
Theorem second_enumeration_yields_children (items : list Item) (n : ref) :
  unique_ids items →
  acyclic items →
  ∃ k ys h',
    (∀ fuel, k ≤ fuel → descendants fuel (Tree_init items) n = Some (ys, h')) ∧
    (∀ fuel, k ≤ fuel →
       descendants fuel h' n = Some (Tree_children (Tree_init items) n, h')).
Proof.
  intros Hu Hac.
  apply (forest_second_run (Tree_init items) (par_index items)
           (depth items) (length items)).
  - intros i c Hc%Tree_init_child. by apply names_parent_par.
  - intros i c Hc%Tree_init_child. apply depth_step; [done|].
    by apply names_parent_par.
  - intros i c Hc%Tree_init_child. apply depth_lt; [done|].
    apply names_parent_lt in Hc. lia.
  - apply Tree_init_children_NoDup.
Qed.

Lemma descendants_writes_children_only_witness :
  length (after_descendants 20 tree (the_node 1)) = length tree ∧
  item_of <$> after_descendants 20 tree (the_node 1) = item_of <$> tree ∧
  ∀ x, parent_of (after_descendants 20 tree (the_node 1)) x = parent_of tree x.
Proof.
  apply (descendants_writes_children_only 20 tree (the_node 1)
           [the_node 3; the_node 5; the_node 8; the_node 9]).
  by vm_compute.
Defined.

Lemma descendants_spares_unyielded_witness :
  children_of (after_descendants 20 tree (the_node 1)) (the_node 1) =
  children_of tree (the_node 1).
Proof.
  apply (descendants_spares_unyielded 20 tree (the_node 1)
           [the_node 3; the_node 5; the_node 8; the_node 9]).
  - by vm_compute.
  - decide_by_computation.
Defined.

Lemma descendants_empties_yielded_witness :
  children_of (after_descendants 20 tree (the_node 1)) (the_node 5) = [].
Proof.
  apply (descendants_empties_yielded 20 tree (the_node 1)
           [the_node 3; the_node 5; the_node 8; the_node 9]).
  - by vm_compute.
  - decide_by_computation.
Defined.

Lemma second_enumeration_yields_children_witness :
  ∃ k ys h',
    (∀ fuel, k ≤ fuel →
       descendants fuel (Tree_init data) (the_node 2) = Some (ys, h')) ∧
    (∀ fuel, k ≤ fuel →
       descendants fuel h' (the_node 2) =
       Some (Tree_children (Tree_init data) (the_node 2), h')).
Proof.
  apply (second_enumeration_yields_children data (the_node 2)).
  - unfold unique_ids. decide_by_computation.
  - intros x Hx.
    do 9 (destruct x as [|x]; [vm_compute; eauto|]).
    simpl in Hx. lia.
Defined.

(** ** Further properties of [ancestors] and [root] *)

(** X12.  While the global name [node] is unbound, [ancestors] raises
    [NameError] for every node that has a child, on any store. *)
Theorem ancestors_raises_while_node_unbound (g : globals) (fuel : nat)
    (h : list Node) (n : ref) (x : Node) :
  g_node g = None →
  h !! n = Some x →
  children x ≠ [] →
  ancestors g (S fuel) h n = Raises (NameError "node").
Proof.
  intros Hg Hn Hc. unfold ancestors. cbn [ancestors_loop].
  rewrite (truthy_Some h n x Hn), Hg. by destruct (children x).
Qed.

Lemma ancestors_raises_while_node_unbound_witness :
  ancestors imported 1 tree (the_node 1) = Raises (NameError "node").
Proof.
  apply (ancestors_raises_while_node_unbound imported 0 tree (the_node 1)
           (mkNode 1 "Category #1" None None [2])).
  - reflexivity.
  - by vm_compute.
  - done.
Defined.

(** X13.  While the global name [node] is bound to [v], on the Tree
    constructed from records with unique ids and ending parent chains,
    [ancestors] of a node with a child at depth [d] returns [d + 1] times
    [v]: one turn for the node and one for each of its ancestors. *)
Theorem ancestors_repeats_global_node (items : list Item) (g : globals)
    (v n : ref) (x : Node) (fuel : nat) :
  g_node g = Some v →
  unique_ids items →
  acyclic items →
  Tree_init items !! n = Some x →
  children x ≠ [] →
  depth items n + 2 ≤ fuel →
  ancestors g fuel (Tree_init items) n =
  Returns (replicate (S (depth items n)) v).
Proof.
  intros Hg Hu Hac Hn Hc Hf. unfold ancestors.
  rewrite (ancestors_loop_climb items g v Hg Hu Hac (depth items n));
    [by rewrite app_nil_r|done| |done].
  unfold children_of. by rewrite Hn.
Qed.

Lemma ancestors_repeats_global_node_witness :
  ancestors (run_as_main tree) 20 (Tree_init data) (the_node 5) =
  Returns (replicate (S (depth data (the_node 5))) (the_node 9)).
Proof.
  apply (ancestors_repeats_global_node data (run_as_main tree)
           (the_node 9) (the_node 5)
           (mkNode 5 "Category #5" (Some 3%Z) (Some (weakref_ref 2)) [7; 8])).
  - reflexivity.
  - unfold unique_ids. decide_by_computation.
  - intros x Hx.
    do 9 (destruct x as [|x]; [vm_compute; eauto|]).
    simpl in Hx. lia.
  - by vm_compute.
  - done.
  - vm_compute. lia.
Defined.

(** X14.  While the global name [node] is bound, [ancestors] does not
    return for a node on a cycle of [parent] links: if [n] lies in a set of
    nodes that each have a child and a [parent] in the set, the loop runs
    out of fuel, however much it is given. *)
Theorem ancestors_loops_on_cycle (g : globals) (v : ref) (h : list Node)
    (P : ref → Prop) (n : ref) (fuel : nat) :
  g_node g = Some v →
  (∀ m, P m → children_of h m ≠ [] ∧ ∃ p, parent_of h m = Some p ∧ P p) →
  P n →
  ancestors g fuel h n = OutOfFuel.
Proof.
  intros Hg HP Hn. unfold ancestors.
  by apply (ancestors_loop_cycle h g v Hg P).
Qed.

Lemma ancestors_loops_on_cycle_witness :
  ancestors {| g_node := Some 0 |} 1000
    (Tree_init [mkItem 1 "a" (Some 2%Z); mkItem 2 "b" (Some 1%Z)]) 0
  = OutOfFuel.
Proof.
  apply (ancestors_loops_on_cycle {| g_node := Some 0 |} 0
           (Tree_init [mkItem 1 "a" (Some 2%Z); mkItem 2 "b" (Some 1%Z)])
           (λ m, m < 2) 0 1000).
  - reflexivity.
  - intros m Hm. destruct m as [|[|m]]; [| |lia].
    + split; [done|]. exists 1. split; [reflexivity|lia].
    + split; [done|]. exists 0. split; [reflexivity|lia].
  - lia.
Defined.

(** X15.  [root] of a node without children is the empty list, whatever
    its ancestors, the store and the module globals. *)
Theorem root_of_leaf (g : globals) (fuel : nat) (h : list Node) (n : ref) (x : Node) :
  h !! n = Some x →
  children x = [] →
  root g (S fuel) h n = Returns EmptyList.
Proof.
  intros Hn Hc. unfold root, ancestors. cbn [ancestors_loop].
  by rewrite (truthy_Some h n x Hn), Hc.
Qed.

Lemma root_of_leaf_witness :
  root imported 1 tree (the_node 7) = Returns EmptyList.
Proof.
  apply (root_of_leaf imported 0 tree (the_node 7)
           (mkNode 7 "Category #7" (Some 6%Z) (Some (weakref_ref 5)) [])).
  - by vm_compute.
  - reflexivity.
Defined.

(** X16.  When [root] returns a node, it is the value of the global name
    [node]: no node of the walk is ever returned. *)
Theorem root_returns_global_node (g : globals) (fuel : nat) (h : list Node)
    (n r : ref) :
  root g fuel h n = Returns (RootNode r) →
  g_node g = Some r.
Proof.
  rewrite root_eq. unfold ancestors.
  destruct (ancestors_loop g fuel h (Some n) []) as [ps| |] eqn:E; [|done..].
  apply ancestors_loop_values in E as (k & -> & Hk).
  rewrite app_nil_r. destruct k as [|k]; [done|].
  destruct Hk as [|[v Hv]]; [done|]. rewrite Hv. simpl. congruence.
Qed.

Lemma root_returns_global_node_witness :
  g_node (run_as_main tree) = Some (the_node 9).
Proof.
  apply (root_returns_global_node (run_as_main tree) 20 tree
           (the_node 5) (the_node 9)).
  by vm_compute.
Defined.

(** ** [Node.add_child] *)

(** X17.  [self.add_child(node_)] on two nodes of the store puts [node_] at
    the end of the children of [self] and makes [self] the [parent] of
    [node_]; the children of every other node and the [parent] of every
    other node are as before.  This covers [self] and [node_] being the
    same node. *)
Theorem add_child_links_both_ways (h : list Node) (n c : ref) :
  n < length h →
  c < length h →
  children_of (add_child n c h) n = children_of h n ++ [c] ∧
  parent_of (add_child n c h) c = Some n ∧
  (∀ i, i ≠ n → children_of (add_child n c h) i = children_of h i) ∧
  (∀ j, j ≠ c → parent_of (add_child n c h) j = parent_of h j).
Proof.
  intros Hn Hc. split_and!.
  - rewrite add_child_children by done. by rewrite decide_True.
  - rewrite add_child_parent by done. by rewrite decide_True.
  - intros i Hi. rewrite add_child_children by done. by rewrite decide_False.
  - intros j Hj. rewrite add_child_parent by done. by rewrite decide_False.
Qed.

Lemma add_child_links_both_ways_witness :
  children_of (add_child 0 0 [Node_init 1 "a" None]) 0 = [] ++ [0] ∧
  parent_of (add_child 0 0 [Node_init 1 "a" None]) 0 = Some 0 ∧
  (∀ i, i ≠ 0 →
     children_of (add_child 0 0 [Node_init 1 "a" None]) i =
     children_of [Node_init 1 "a" None] i) ∧
  (∀ j, j ≠ 0 →
     parent_of (add_child 0 0 [Node_init 1 "a" None]) j =
     parent_of [Node_init 1 "a" None] j).
Proof.
  apply (add_child_links_both_ways [Node_init 1 "a" None] 0 0).
  - simpl. lia.
  - simpl. lia.
Defined.
